(** * DocuIntelli: text extraction and chunking ([extract_and_chunk.py])

    A shallow embedding of the two functions of the script,
    [extract_text] and [chunk_text], of the script's body, and the
    properties of its specification.

    Python values are modelled as follows.
    - [int] is [Z] (unbounded).
    - [str] is a list of Unicode code points, each an [N].
    - the dict [{"index": i, "content": c}] is the record [Chunk].
    - an exception is the [Err] case of [result].
    - the [while] loop of [chunk_text] is a loop state, its condition and
      its body, iterated with fuel; running out of fuel is [None].
    - the libraries and the filesystem are the fields of a [World];
      [json.dumps] is an argument of the script, and [Json.dumps] is its
      behaviour with the default options. *)

From Stdlib Require Import String Ascii Bool NArith ZArith Lia List.
From Stdlib Require Import DecimalString.
Import ListNotations.

#[local] Open Scope Z_scope.

(** ** Python strings *)

Module PyStr.

Definition char : Type := N.
Definition str : Type := list char.

(** A string literal of the source, character by character. *)
Fixpoint lit (s : string) : str :=
  match s with
  | EmptyString => []
  | String a s' => N_of_ascii a :: lit s'
  end.

Definition len (s : str) : Z := Z.of_nat (length s).

Definition char_eqb : char -> char -> bool := N.eqb.

(** [s == t] *)
Fixpoint eqb (s t : str) : bool :=
  match s, t with
  | [], [] => true
  | a :: s', b :: t' => char_eqb a b && eqb s' t'
  | _, _ => false
  end.

(** [s.startswith(p)] *)
Fixpoint startswith (s p : str) {struct p} : bool :=
  match p, s with
  | [], _ => true
  | b :: p', a :: s' => char_eqb a b && startswith s' p'
  | _ :: _, [] => false
  end.

(** [sub in s], as a proposition. *)
Definition contains (s sub : str) : Prop :=
  exists pre post, s = pre ++ sub ++ post.

(** A slice bound is taken from the end when negative and clamped to
    [0 .. n]. *)
Definition clamp_index (n i : Z) : Z :=
  if i <? 0 then Z.max (i + n) 0 else Z.min i n.

(** [s[lo:hi]]: never an error, empty when the bounds cross. *)
Definition slice (s : str) (lo hi : Z) : str :=
  let n := len s in
  let lo' := clamp_index n lo in
  let hi' := clamp_index n hi in
  firstn (Z.to_nat (hi' - lo')) (skipn (Z.to_nat lo') s).

(** [c.isspace()] for one code point: the characters [str.strip()]
    removes when called without argument. *)
Definition isspace (c : char) : bool :=
  ((9 <=? c) && (c <=? 13)
   || (28 <=? c) && (c <=? 32)
   || (c =? 133) || (c =? 160) || (c =? 5760)
   || (8192 <=? c) && (c <=? 8202)
   || (c =? 8232) || (c =? 8233) || (c =? 8239) || (c =? 8287)
   || (c =? 12288))%N.

Fixpoint lstrip (s : str) : str :=
  match s with
  | [] => []
  | c :: s' => if isspace c then lstrip s' else s
  end.

Definition rstrip (s : str) : str := rev (lstrip (rev s)).

(** [s.strip()] *)
Definition strip (s : str) : str := rstrip (lstrip s).

(** Truth value of a string: non-empty. *)
Definition truthy (s : str) : bool :=
  match s with [] => false | _ :: _ => true end.

End PyStr.

Import PyStr.

(** ** [chunk_text] *)

Record Chunk : Type := mkChunk { index : Z; content : str }.

Module Chunker.

Record LoopState : Type := mkLoop
  { chunks : list Chunk; start : Z; idx : Z }.

Section Loop.

Variable text : str.
Variables chunk_size overlap : Z.

(** [chunks = []; start = 0; index = 0] *)
Definition init : LoopState :=
  {| chunks := []; start := 0; idx := 0 |}.

(** [start < len(text)] *)
Definition loop_cond (st : LoopState) : bool := start st <? len text.

Definition loop_body (st : LoopState) : LoopState :=
  let end_ := start st + chunk_size in
  let chunk := strip (slice text (start st) end_) in
  {| chunks := chunks st ++ [ {| index := idx st; content := chunk |} ];
     start := end_ - overlap;
     idx := idx st + 1 |}.

(** The [while] loop; [None] when [fuel] iterations do not reach the
    exit. *)
Fixpoint while (fuel : nat) (st : LoopState) : option LoopState :=
  match fuel with
  | O => None
  | S fuel' =>
      if loop_cond st then while fuel' (loop_body st) else Some st
  end.

Definition chunk_text_fuel (fuel : nat) : option (list Chunk) :=
  option_map chunks (while fuel init).

(** [chunk_text(text, chunk_size, overlap)] returns [r]. *)
Definition chunk_text_returns (r : list Chunk) : Prop :=
  exists fuel, chunk_text_fuel fuel = Some r.

(** [chunk_text(text, chunk_size, overlap)] never returns. *)
Definition chunk_text_diverges : Prop :=
  forall fuel, chunk_text_fuel fuel = None.

End Loop.

End Chunker.

Import Chunker.

(** ** [extract_text] *)

Module Extractor.

(** Outcome of a call that may raise. *)
Inductive result (E A : Type) : Type :=
| Ok (a : A)
| Err (e : E).
Arguments Ok {E A} a.
Arguments Err {E A} e.

Definition bind {E A B} (c : result E A) (k : A -> result E B)
  : result E B :=
  match c with
  | Ok a => k a
  | Err e => Err e
  end.

Notation "x <- c ;; k" := (bind c (fun x => k))
  (at level 61, c at next level, right associativity).

Section World.

(** File paths, the page objects of the PDF library, and whatever the
    libraries and the filesystem raise. *)
Variables path page ext_error : Type.

(** What [extract_text] can raise: its own [Exception(msg)], or an
    error that comes out of a library or of the filesystem and is
    not caught. *)
Inductive exn : Type :=
| Exception (msg : str)
| External (e : ext_error).

(** The collaborators of [extract_text]. *)
Record World : Type := mkWorld
  { (* [pdfplumber.open(file_path).pages] *)
    pdf_pages : path -> result ext_error (list page);
    (* [page.extract_text()]: a string or [None] *)
    page_extract_text : page -> result ext_error (option str);
    (* [docx2txt.process(file_path)] *)
    docx2txt_process : path -> result ext_error str;
    (* [open(file_path, "r", encoding="utf-8").read()] *)
    read_utf8 : path -> result ext_error str }.

Variable w : World.

Definition call {A} (c : result ext_error A) : result exn A :=
  match c with
  | Ok a => Ok a
  | Err e => Err (External e)
  end.

Definition newline : str := [10%N].

Definition mime_pdf : str := lit "application/pdf".
Definition mime_docx : str :=
  lit "application/vnd.openxmlformats-officedocument.wordprocessingml.document".
Definition mime_doc : str := lit "application/msword".
Definition text_prefix : str := lit "text/".
Definition unsupported_prefix : str := lit "Unsupported file type: ".

(** [if page_text:] holds for a non-empty string, fails for [None]
    and for the empty string. *)
Definition page_text_truthy (page_text : option str) : bool :=
  match page_text with
  | Some s => truthy s
  | None => false
  end.

(** [for page in pdf.pages: ...], with [text] so far. *)
Fixpoint pages_loop (pages : list page) (text : str)
  : result exn str :=
  match pages with
  | [] => Ok text
  | pg :: rest =>
      page_text <- call (page_extract_text w pg) ;;
      pages_loop rest
        (match page_text with
         | Some s => if truthy s then text ++ (s ++ newline) else text
         | None => text
         end)
  end.

Definition extract_text (file_path : path) (mime_type : str)
  : result exn str :=
  if eqb mime_type mime_pdf then
    pages <- call (pdf_pages w file_path) ;;
    pages_loop pages []
  else if existsb (eqb mime_type) [mime_docx; mime_doc] then
    call (docx2txt_process w file_path)
  else if startswith mime_type text_prefix then
    call (read_utf8 w file_path)
  else
    Err (Exception (unsupported_prefix ++ mime_type)).

End World.

Arguments Exception {ext_error} msg.
Arguments External {ext_error} e.
Arguments pdf_pages {path page ext_error} w _.
Arguments page_extract_text {path page ext_error} w _.
Arguments docx2txt_process {path page ext_error} w _.
Arguments read_utf8 {path page ext_error} w _.
Arguments call {ext_error A} c.
Arguments pages_loop {path page ext_error} w pages text.
Arguments extract_text {path page ext_error} w file_path mime_type.

(** The text the specification gives for a PDF whose pages yield
    [texts]: every non-empty page text followed by one newline, in page
    order; a page without text counts as empty. *)
Definition spec_pdf_text (texts : list (option str)) : str :=
  flat_map (fun s => s ++ newline)
    (filter truthy
       (map (fun t => match t with Some s => s | None => [] end) texts)).

End Extractor.

Import Extractor.

(** ** Definitions used to state the properties of [chunk_text] *)

(** [ceil(a / b)] for positive [b]. *)
Definition ceil_div (a b : Z) : Z := (a + b - 1) / b.

(** The source window of the chunk with index [i]:
    [text[i*(chunk_size-overlap) : i*(chunk_size-overlap)+chunk_size]]. *)
Definition window (text : str) (chunk_size overlap : Z) (i : nat) : str :=
  slice text (Z.of_nat i * (chunk_size - overlap))
             (Z.of_nat i * (chunk_size - overlap) + chunk_size).

(** Position [p] of the text lies in the source window of chunk [i]. *)
Definition covers (text : str) (chunk_size overlap : Z) (i : nat) (p : Z)
  : Prop :=
  Z.of_nat i * (chunk_size - overlap) <= p
  /\ p < Z.min (Z.of_nat i * (chunk_size - overlap) + chunk_size) (len text).

(** [n] iterations of the loop body. *)
Fixpoint iterate (text : str) (chunk_size overlap : Z) (n : nat)
  (st : LoopState) : LoopState :=
  match n with
  | O => st
  | S n' => loop_body text chunk_size overlap
              (iterate text chunk_size overlap n' st)
  end.

(** The chunks the specification describes: one per window, in order,
    numbered from 0, each the window stripped. *)
Definition spec_chunks (text : str) (chunk_size overlap : Z) (n : nat)
  : list Chunk :=
  map (fun i => {| index := Z.of_nat i;
                   content := strip (window text chunk_size overlap i) |})
      (seq 0 n).

(** The number of chunks the specification gives. *)
Definition spec_count (text : str) (chunk_size overlap : Z) : nat :=
  Z.to_nat (ceil_div (len text) (chunk_size - overlap)).

(** No whitespace at either end of [s]. *)
Definition no_outer_space (s : str) : Prop :=
  (forall c t, s = c :: t -> isspace c = false)
  /\ (forall t c, s = t ++ [c] -> isspace c = false).

(** The text of the example: 1800 times the letter a. *)
Definition a1800 : str := repeat 97%N 1800.

(** The example of the specification on that text: three chunks. *)
Definition three_chunks_claim : Prop :=
  exists c0 c1 c2,
    chunk_text_returns a1800 1000 100 [c0; c1; c2]
    /\ c0 = {| index := 0; content := slice a1800 0 1000 |}
    /\ c1 = {| index := 1; content := slice a1800 900 1800 |}
    /\ c2 = {| index := 2; content := slice a1800 1700 1800 |}.

(** ** A sample world for [extract_text] *)

(** A file whose two PDF pages yield "Hello" and "World", whose Word text
    and plain text are fixed strings. *)
Definition sample_world : World unit (option str) unit :=
  {| pdf_pages := fun _ => Ok [Some (lit "Hello"); Some (lit "World")];
     page_extract_text := fun pg => Ok pg;
     docx2txt_process := fun _ => Ok (lit "Word text");
     read_utf8 := fun _ => Ok (lit "plain text") |}.

(** ** The script: [if __name__ == "__main__": ...] *)

Module Script.

(** The dict [{"text": raw_text, "chunks": chunks}] handed to
    [json.dumps]. *)
Record Output : Type := mkOutput
  { out_text : str; out_chunks : list Chunk }.

(** What ends a run early: [sys.argv[i]] out of range, or whatever
    [extract_text] raised. *)
Inductive script_exn (ext_error : Type) : Type :=
| IndexError
| Raised (e : exn ext_error).
Arguments IndexError {ext_error}.
Arguments Raised {ext_error} e.

(** A finished run: what was written to standard output, and the
    uncaught exception if there was one. *)
Record Run (ext_error : Type) : Type := mkRun
  { stdout : str; uncaught : option (script_exn ext_error) }.
Arguments mkRun {ext_error} stdout uncaught.
Arguments stdout {ext_error} r.
Arguments uncaught {ext_error} r.

Section Main.

Variables page ext_error : Type.

(** File paths are the strings of the command line. *)
Variable w : World str page ext_error.

(** [json.dumps] *)
Variable json_dumps : Output -> str.

Definition fails (e : script_exn ext_error) : Run ext_error :=
  {| stdout := []; uncaught := Some e |}.

(** The body of the script on [sys.argv = argv]; [None] when [fuel] is
    not enough for the loop of [chunk_text]. *)
Definition main (fuel : nat) (argv : list str)
  : option (Run ext_error) :=
  match nth_error argv 1 with
  | None => Some (fails IndexError)
  | Some file_path =>
      match nth_error argv 2 with
      | None => Some (fails IndexError)
      | Some mime_type =>
          match extract_text w file_path mime_type with
          | Err e => Some (fails (Raised e))
          | Ok raw_text =>
              match chunk_text_fuel raw_text 1000 100 fuel with
              | None => None
              | Some chunks =>
                  Some {| stdout :=
                            json_dumps {| out_text := raw_text;
                                          out_chunks := chunks |}
                            ++ newline;
                          uncaught := None |}
              end
          end
      end
  end.

(** The script finishes as [r]. *)
Definition main_returns (argv : list str) (r : Run ext_error) : Prop :=
  exists fuel, main fuel argv = Some r.

End Main.

Arguments fails {ext_error} e.
Arguments main {page ext_error} w json_dumps fuel argv.
Arguments main_returns {page ext_error} w json_dumps argv r.

End Script.

Import Script.

(** ** [json.dumps] with its default options, on the values of the script *)

Module Json.

Definition hex_digit (d : N) : char :=
  nth (N.to_nat d) (lit "0123456789abcdef") 48%N.

(** Backslash, [u] and four hexadecimal digits. *)
Definition u_escape (n : N) : str :=
  [ 92; 117;
    hex_digit ((n / 4096) mod 16); hex_digit ((n / 256) mod 16);
    hex_digit ((n / 16) mod 16); hex_digit (n mod 16) ]%N.

(** One character of a string under [ensure_ascii=True]: the short
    escapes, the printable ASCII characters as they are, [\uXXXX] for
    the rest, as a surrogate pair above the basic plane. *)
Definition escape_char (c : char) : str :=
  (if c =? 92 then [92; 92]
   else if c =? 34 then [92; 34]
   else if c =? 8 then [92; 98]
   else if c =? 12 then [92; 102]
   else if c =? 10 then [92; 110]
   else if c =? 13 then [92; 114]
   else if c =? 9 then [92; 116]
   else if (32 <=? c) && (c <=? 126) then [c]
   else if c <? 65536 then u_escape c
   else
     let n := c - 65536 in
     u_escape (N.lor 55296 (N.land (N.shiftr n 10) 1023))
     ++ u_escape (N.lor 56320 (N.land n 1023)))%N.

Definition quote : str := [34%N].

Definition dumps_str (s : str) : str :=
  quote ++ flat_map escape_char s ++ quote.

(** An [int] in decimal. *)
Definition dumps_int (z : Z) : str :=
  lit (NilZero.string_of_int (Z.to_int z)).

(** [{"index": i, "content": c}] *)
Definition dumps_chunk (c : Chunk) : str :=
  lit "{" ++ dumps_str (lit "index") ++ lit ": " ++ dumps_int (index c)
  ++ lit ", " ++ dumps_str (lit "content") ++ lit ": "
  ++ dumps_str (content c) ++ lit "}".

Fixpoint join (sep : str) (items : list str) : str :=
  match items with
  | [] => []
  | [x] => x
  | x :: rest => x ++ sep ++ join sep rest
  end.

Definition dumps_chunks (cs : list Chunk) : str :=
  lit "[" ++ join (lit ", ") (map dumps_chunk cs) ++ lit "]".

(** [json.dumps({"text": raw_text, "chunks": chunks})] *)
Definition dumps (o : Output) : str :=
  lit "{" ++ dumps_str (lit "text") ++ lit ": " ++ dumps_str (out_text o)
  ++ lit ", " ++ dumps_str (lit "chunks") ++ lit ": "
  ++ dumps_chunks (out_chunks o) ++ lit "}".

(** A printable ASCII character. *)
Definition printable (c : char) : Prop := (32 <= c <= 126)%N.

End Json.

(** ** Definitions used to state further properties *)

(** The text the chunks give back when the overlap is dropped: the first
    [chunk_size - overlap] characters of every content. *)
Definition rejoin (chunk_size overlap : Z) (r : list Chunk) : str :=
  flat_map (fun c => firstn (Z.to_nat (chunk_size - overlap)) (content c)) r.

(** A world whose PDF has a second page that fails, whose Word
    extraction fails, and whose text file holds a fixed string. *)
Definition faulty_world : World str (result unit (option str)) unit :=
  {| pdf_pages := fun _ =>
       Ok [Ok (Some (lit "Hello")); Err tt; Ok (Some (lit "World"))];
     page_extract_text := fun pg => pg;
     docx2txt_process := fun _ => Err tt;
     read_utf8 := fun _ => Ok (lit "plain text") |}.

(** A world over command-line paths: a PDF of two pages, "Hello" and
    "World"; a Word text; a plain text. *)
Definition files_world : World str (option str) unit :=
  {| pdf_pages := fun _ => Ok [Some (lit "Hello"); Some (lit "World")];
     page_extract_text := fun pg => Ok pg;
     docx2txt_process := fun _ => Ok (lit "Word text");
     read_utf8 := fun _ => Ok (lit "plain text") |}.

(** * Properties *)

(** ** Arithmetic of [ceil_div] *)

Lemma ceil_div_bounds (a b : Z) :
  0 < b -> (ceil_div a b - 1) * b < a <= ceil_div a b * b.
Proof.
  intros Hb. unfold ceil_div.
  pose proof (Z.div_mod (a + b - 1) b ltac:(lia)) as Hdm.
  pose proof (Z.mod_pos_bound (a + b - 1) b Hb) as Hm.
  nia.
Qed.

Lemma ceil_div_nonneg (a b : Z) : 0 < b -> 0 <= a -> 0 <= ceil_div a b.
Proof.
  intros Hb Ha. unfold ceil_div. apply Z.div_pos; lia.
Qed.

Lemma ceil_div_unique (a b q : Z) :
  0 < b -> (q - 1) * b < a <= q * b -> ceil_div a b = q.
Proof.
  intros Hb Hq. pose proof (ceil_div_bounds a b Hb) as Hc. nia.
Qed.

(** ** The loop of [chunk_text] *)

Section LoopFacts.

Variable text : str.
Variables chunk_size overlap : Z.

Let step : Z := chunk_size - overlap.
Let body := loop_body text chunk_size overlap.
Let iter := iterate text chunk_size overlap.

Lemma loop_body_start (st : LoopState) :
  start (body st) = start st + (chunk_size - overlap).
Proof. unfold body, loop_body; simpl; lia. Qed.

Lemma iterate_shift (n : nat) (st : LoopState) :
  iter n (body st) = body (iter n st).
Proof.
  induction n as [|n IH]; [reflexivity|].
  change (iter (S n) (body st)) with (body (iter n (body st))).
  now rewrite IH.
Qed.

Lemma iterate_start (n : nat) (st : LoopState) :
  start (iter n st) = start st + Z.of_nat n * step.
Proof.
  induction n as [|n IH].
  - change (iter 0 st) with st. lia.
  - change (iter (S n) st) with (body (iter n st)).
    rewrite loop_body_start, IH. unfold step. lia.
Qed.

Lemma iterate_idx (n : nat) (st : LoopState) :
  idx (iter n st) = idx st + Z.of_nat n.
Proof.
  induction n as [|n IH].
  - change (iter 0 st) with st. lia.
  - change (iter (S n) st) with (body (iter n st)).
    unfold body, loop_body at 1. cbn [idx]. fold iter. rewrite IH. lia.
Qed.

Lemma iterate_chunks (n : nat) (st : LoopState) :
  chunks (iter n st) =
  chunks st ++
  map (fun j => {| index := idx st + Z.of_nat j;
                   content := strip (slice text
                                (start st + Z.of_nat j * step)
                                (start st + Z.of_nat j * step + chunk_size)) |})
      (seq 0 n).
Proof.
  induction n as [|n IH].
  - change (iter 0 st) with st. simpl. now rewrite app_nil_r.
  - change (iter (S n) st) with (body (iter n st)).
    unfold body, loop_body at 1. cbn [chunks].
    fold iter. rewrite IH, iterate_start, iterate_idx.
    rewrite seq_S, map_app, <- app_assoc. reflexivity.
Qed.

(** The loop leaves after exactly [k] iterations when the cursor is
    inside the text for the first [k] and outside after them. *)
Lemma while_iterate (k : nat) :
  forall (fuel : nat) (st : LoopState),
    (k < fuel)%nat ->
    (forall j, (j < k)%nat -> start st + Z.of_nat j * step < len text) ->
    len text <= start st + Z.of_nat k * step ->
    while text chunk_size overlap fuel st = Some (iter k st).
Proof.
  induction k as [|k IH]; intros fuel st Hfuel Hin Hout.
  - destruct fuel as [|fuel]; [lia|]. simpl.
    unfold loop_cond.
    destruct (Z.ltb_spec (start st) (len text)) as [Hlt|Hge]; [lia|].
    reflexivity.
  - destruct fuel as [|fuel]; [lia|].
    cbn [while]. unfold loop_cond.
    destruct (Z.ltb_spec (start st) (len text)) as [Hlt|Hge].
    + fold body. rewrite IH.
      * f_equal. exact (iterate_shift k st).
      * lia.
      * intros j Hj. rewrite loop_body_start. fold step.
        specialize (Hin (S j) ltac:(lia)). lia.
      * rewrite loop_body_start. fold step. lia.
    + specialize (Hin O ltac:(lia)). simpl in Hin. lia.
Qed.

(** While the cursor stays inside the text the loop does not leave. *)
Lemma while_stuck (fuel : nat) :
  forall st : LoopState,
    (forall j : nat, start st + Z.of_nat j * step < len text) ->
    while text chunk_size overlap fuel st = None.
Proof.
  induction fuel as [|fuel IH]; intros st Hin; [reflexivity|].
  cbn [while]. unfold loop_cond.
  destruct (Z.ltb_spec (start st) (len text)) as [Hlt|Hge].
  - apply IH. intros j. fold body. rewrite loop_body_start. fold step.
    specialize (Hin (S j)). lia.
  - specialize (Hin O). simpl in Hin. lia.
Qed.

Lemma while_more_fuel (fuel : nat) :
  forall (st st' : LoopState) (extra : nat),
    while text chunk_size overlap fuel st = Some st' ->
    while text chunk_size overlap (fuel + extra) st = Some st'.
Proof.
  induction fuel as [|fuel IH]; intros st st' extra H; [discriminate|].
  cbn [while Nat.add] in *.
  destruct (loop_cond text st); [now apply IH|assumption].
Qed.

Lemma chunk_text_returns_unique (r r' : list Chunk) :
  chunk_text_returns text chunk_size overlap r ->
  chunk_text_returns text chunk_size overlap r' ->
  r = r'.
Proof.
  intros [f Hf] [f' Hf']. unfold chunk_text_fuel in *.
  destruct (while text chunk_size overlap f (init)) as [s|] eqn:E;
    [|discriminate].
  destruct (while text chunk_size overlap f' (init)) as [s'|] eqn:E';
    [|discriminate].
  apply (while_more_fuel _ _ _ f') in E.
  apply (while_more_fuel _ _ _ f) in E'.
  rewrite Nat.add_comm in E'. rewrite E in E'.
  simpl in *. congruence.
Qed.

Hypothesis step_pos : 0 < chunk_size - overlap.

Let n : nat := spec_count text chunk_size overlap.

Lemma spec_count_bounds :
  (Z.of_nat n - 1) * step < len text <= Z.of_nat n * step.
Proof.
  unfold n, spec_count. fold step.
  assert (0 <= len text) by (unfold len; lia).
  rewrite Z2Nat.id by (apply ceil_div_nonneg; unfold step; lia).
  apply ceil_div_bounds. unfold step; lia.
Qed.

(** With a positive step, [spec_count + 1] units of fuel are enough, and
    the result is the list of the specification. *)
Lemma chunk_text_fuel_spec (fuel : nat) :
  (n < fuel)%nat ->
  chunk_text_fuel text chunk_size overlap fuel =
  Some (spec_chunks text chunk_size overlap n).
Proof.
  intros Hfuel. unfold chunk_text_fuel.
  pose proof spec_count_bounds as Hb.
  rewrite (while_iterate n).
  - simpl. f_equal. fold iter. rewrite iterate_chunks. simpl.
    unfold spec_chunks, window. fold step. reflexivity.
  - exact Hfuel.
  - intros j Hj. simpl. unfold step in *. nia.
  - simpl. lia.
Qed.

Lemma chunk_text_returns_spec :
  chunk_text_returns text chunk_size overlap
    (spec_chunks text chunk_size overlap n).
Proof. exists (S n). apply chunk_text_fuel_spec. lia. Qed.

End LoopFacts.

(** ** Strings: comparison, slices, [strip] *)

Lemma eqb_eq (s t : str) : eqb s t = true <-> s = t.
Proof.
  revert t. induction s as [|a s IH]; intros [|b t]; simpl;
    try (split; [discriminate|congruence]); [tauto|].
  unfold char_eqb. rewrite andb_true_iff, N.eqb_eq, IH.
  split; [intros [-> ->]; reflexivity|intros H; inversion H; auto].
Qed.

Lemma eqb_neq (s t : str) : eqb s t = false <-> s <> t.
Proof.
  rewrite <- eqb_eq. destruct (eqb s t); split; congruence.
Qed.

Lemma startswith_prefix (s p : str) :
  startswith s p = true <-> exists rest, s = p ++ rest.
Proof.
  revert s. induction p as [|b p IH]; intros s; simpl.
  - split; [intros _; now exists s|reflexivity].
  - destruct s as [|a s].
    + split; [discriminate|intros [rest H]; discriminate].
    + unfold char_eqb. rewrite andb_true_iff, N.eqb_eq, IH. split.
      * intros [-> [rest ->]]. now exists rest.
      * intros [rest H]. inversion H. split; [reflexivity|now exists rest].
Qed.

Lemma contains_refl (s : str) : contains s s.
Proof. exists [], []. now rewrite app_nil_r. Qed.

Lemma contains_trans (s t u : str) :
  contains s t -> contains t u -> contains s u.
Proof.
  intros [p1 [q1 ->]] [p2 [q2 ->]].
  exists (p1 ++ p2), (q2 ++ q1). now rewrite <- !app_assoc.
Qed.

Lemma contains_length (s t : str) : contains s t -> len t <= len s.
Proof.
  intros [p [q ->]]. unfold len. rewrite !length_app. lia.
Qed.

Lemma len_nonneg (s : str) : 0 <= len s.
Proof. unfold len. lia. Qed.

(** A slice with bounds [0 <= lo <= hi] is [hi - lo] characters from
    position [lo], fewer if the string ends before. *)
Lemma slice_firstn_skipn (s : str) (lo hi : Z) :
  0 <= lo <= hi ->
  slice s lo hi = firstn (Z.to_nat (hi - lo)) (skipn (Z.to_nat lo) s).
Proof.
  intros [Hlo Hhi]. unfold slice, clamp_index, len.
  destruct (Z.ltb_spec lo 0) as [?|_]; [lia|].
  destruct (Z.ltb_spec hi 0) as [?|_]; [lia|].
  destruct (Z_le_gt_dec lo (Z.of_nat (length s))) as [Hin|Hout].
  - rewrite (Z.min_l lo) by assumption.
    destruct (Z_le_gt_dec hi (Z.of_nat (length s))) as [Hin'|Hout'].
    + now rewrite Z.min_l by assumption.
    + rewrite Z.min_r by lia.
      rewrite !firstn_all2; [reflexivity| |]; rewrite length_skipn; lia.
  - rewrite (Z.min_r lo) by lia.
    rewrite !skipn_all2 by lia. now rewrite !firstn_nil.
Qed.

Lemma slice_contains (s : str) (lo hi : Z) : contains s (slice s lo hi).
Proof.
  unfold slice.
  set (a := Z.to_nat _). set (b := Z.to_nat _).
  exists (firstn b s), (skipn a (skipn b s)).
  now rewrite firstn_skipn, firstn_skipn.
Qed.

Lemma slice_len (s : str) (lo hi : Z) :
  0 <= lo <= hi ->
  len (slice s lo hi) = Z.max 0 (Z.min (hi - lo) (len s - lo)).
Proof.
  intros H. rewrite slice_firstn_skipn by assumption.
  unfold len. rewrite length_firstn, length_skipn. lia.
Qed.

Lemma lstrip_split (s : str) :
  exists pre, s = pre ++ lstrip s /\ forallb isspace pre = true.
Proof.
  induction s as [|c s [pre [Hs Hpre]]]; simpl.
  - now exists [].
  - destruct (isspace c) eqn:Hc.
    + exists (c :: pre). simpl. rewrite Hc, Hpre. split; [congruence|easy].
    + now exists [].
Qed.

Lemma lstrip_head (s : str) (c : char) (t : str) :
  lstrip s = c :: t -> isspace c = false.
Proof.
  induction s as [|a s IH]; simpl; [discriminate|].
  destruct (isspace a) eqn:Ha; [assumption|].
  intros H. inversion H. congruence.
Qed.

Lemma lstrip_all_space (s : str) :
  forallb isspace s = true -> lstrip s = [].
Proof.
  induction s as [|c s IH]; simpl; [reflexivity|].
  rewrite andb_true_iff. intros [-> H]. auto.
Qed.

Lemma lstrip_snoc (s : str) (c : char) :
  isspace c = false -> lstrip (s ++ [c]) = lstrip s ++ [c].
Proof.
  intros Hc. induction s as [|a s IH]; simpl.
  - now rewrite Hc.
  - destruct (isspace a); [assumption|reflexivity].
Qed.

Lemma rstrip_split (s : str) :
  exists post, s = rstrip s ++ post /\ forallb isspace post = true.
Proof.
  unfold rstrip. destruct (lstrip_split (rev s)) as [pre [Hs Hpre]].
  exists (rev pre). split.
  - rewrite <- rev_app_distr, <- Hs. now rewrite rev_involutive.
  - rewrite forallb_forall in *. intros x Hx. apply Hpre.
    now apply in_rev.
Qed.

Lemma rstrip_last (s t : str) (c : char) :
  rstrip s = t ++ [c] -> isspace c = false.
Proof.
  unfold rstrip. intros H.
  apply (f_equal (@rev char)) in H.
  rewrite rev_involutive, rev_app_distr in H. simpl in H.
  eapply lstrip_head; eassumption.
Qed.

Lemma rstrip_cons (c : char) (s : str) :
  isspace c = false -> rstrip (c :: s) = c :: rstrip s.
Proof.
  intros Hc. unfold rstrip. simpl.
  rewrite lstrip_snoc by assumption.
  now rewrite rev_app_distr.
Qed.

Lemma strip_split (s : str) :
  exists pre post,
    s = pre ++ strip s ++ post
    /\ forallb isspace pre = true /\ forallb isspace post = true.
Proof.
  destruct (lstrip_split s) as [pre [Hs Hpre]].
  destruct (rstrip_split (lstrip s)) as [post [Hl Hpost]].
  exists pre, post. unfold strip. now rewrite <- Hl.
Qed.

Lemma strip_contains (s : str) : contains s (strip s).
Proof.
  destruct (strip_split s) as [pre [post [H _]]]. now exists pre, post.
Qed.

Lemma strip_head (s : str) (c : char) (t : str) :
  strip s = c :: t -> isspace c = false.
Proof.
  unfold strip. destruct (lstrip s) as [|a l] eqn:El.
  - discriminate.
  - pose proof (lstrip_head _ _ _ El) as Ha.
    rewrite rstrip_cons by assumption. congruence.
Qed.

Lemma strip_last (s t : str) (c : char) :
  strip s = t ++ [c] -> isspace c = false.
Proof. unfold strip. apply rstrip_last. Qed.

Lemma strip_all_space (s : str) :
  forallb isspace s = true -> strip s = [].
Proof.
  intros H. unfold strip. now rewrite lstrip_all_space.
Qed.

(** ** Windows *)

Section WindowFacts.

Variable text : str.
Variables chunk_size overlap : Z.

Hypothesis overlap_nonneg : 0 <= overlap.
Hypothesis overlap_small : overlap < chunk_size.

Let step : Z := chunk_size - overlap.
Let win := window text chunk_size overlap.

(** A window is [chunk_size] characters from its start, or what is
    left of the text. *)
Lemma window_firstn_skipn (i : nat) :
  win i = firstn (Z.to_nat chunk_size) (skipn (i * Z.to_nat step) text).
Proof.
  unfold win, window. fold step.
  rewrite slice_firstn_skipn by (unfold step; nia).
  f_equal; [f_equal; lia|f_equal].
  rewrite Z2Nat.inj_mul by (unfold step; lia).
  now rewrite Nat2Z.id.
Qed.

Lemma window_len (i : nat) :
  len (win i) = Z.max 0 (Z.min chunk_size (len text - Z.of_nat i * step)).
Proof.
  unfold win, window. fold step.
  rewrite slice_len by (unfold step; nia).
  f_equal. f_equal. lia.
Qed.

Lemma window_contains (i : nat) : contains text (win i).
Proof. apply slice_contains. Qed.

(** The first [overlap] characters of a window are the characters of
    the previous window after its first [chunk_size - overlap]. *)
Lemma window_overlap (i : nat) :
  firstn (Z.to_nat overlap) (win (S i)) = skipn (Z.to_nat step) (win i).
Proof.
  rewrite !window_firstn_skipn.
  rewrite firstn_firstn, skipn_firstn_comm, skipn_skipn.
  f_equal; unfold step; lia.
Qed.

(** The character at a covered position is the character of the window
    at the offset from the window's start. *)
Lemma covers_window (i : nat) (p : Z) :
  covers text chunk_size overlap i p ->
  exists c,
    nth_error text (Z.to_nat p) = Some c
    /\ nth_error (win i) (Z.to_nat (p - Z.of_nat i * step)) = Some c.
Proof.
  unfold covers. fold step. intros [Hlo Hhi].
  assert (Hp : (Z.to_nat p < length text)%nat) by (unfold len in Hhi; nia).
  destruct (nth_error text (Z.to_nat p)) as [c|] eqn:Ec.
  - exists c. split; [reflexivity|].
    rewrite window_firstn_skipn, nth_error_firstn, nth_error_skipn.
    replace (_ <? _)%nat with true
      by (symmetry; apply Nat.ltb_lt; unfold step in *; nia).
    rewrite <- Ec. f_equal. unfold step in *. nia.
  - apply nth_error_None in Ec. lia.
Qed.

(** Every position of the text is covered by the window with index
    [p / (chunk_size - overlap)], which is one of the emitted ones. *)
Lemma covers_exists (p : Z) :
  0 <= p < len text ->
  exists i, (i < spec_count text chunk_size overlap)%nat
            /\ covers text chunk_size overlap i p.
Proof.
  intros Hp.
  assert (Hs : 0 < step) by (unfold step; lia).
  pose proof (spec_count_bounds text chunk_size overlap Hs) as Hb.
  fold step in Hb.
  pose proof (Z.div_mod p step ltac:(lia)) as Hdm.
  pose proof (Z.mod_pos_bound p step Hs) as Hm.
  assert (Hq : 0 <= p / step) by (apply Z.div_pos; lia).
  exists (Z.to_nat (p / step)). unfold covers. fold step.
  rewrite Z2Nat.id by assumption.
  split; [|split].
  - nia.
  - nia.
  - apply Z.min_glb_lt; unfold step in *; nia.
Qed.

End WindowFacts.

(** ** What [strip] guarantees for the content of a chunk *)

Lemma strip_no_outer_space (s : str) : no_outer_space (strip s).
Proof.
  split; intros; [eapply strip_head|eapply strip_last]; eassumption.
Qed.

Lemma spec_chunks_length (text : str) (cs ov : Z) (n : nat) :
  length (spec_chunks text cs ov n) = n.
Proof. unfold spec_chunks. now rewrite length_map, length_seq. Qed.

Lemma spec_chunks_nth (text : str) (cs ov : Z) (n i : nat) :
  (i < n)%nat ->
  nth_error (spec_chunks text cs ov n) i =
  Some {| index := Z.of_nat i; content := strip (window text cs ov i) |}.
Proof.
  intros Hi. unfold spec_chunks.
  rewrite nth_error_map, nth_error_seq.
  apply Nat.ltb_lt in Hi. now rewrite Hi.
Qed.

Lemma spec_chunks_index (text : str) (cs ov : Z) (n : nat) :
  map index (spec_chunks text cs ov n) = map Z.of_nat (seq 0 n).
Proof.
  unfold spec_chunks. rewrite map_map. reflexivity.
Qed.

(** ** [chunk_text] with the default arguments *)

Lemma default_step_pos : 0 < 1000 - 100.
Proof. reflexivity. Qed.

Lemma chunk_text_default (text : str) :
  chunk_text_returns text 1000 100
    (spec_chunks text 1000 100 (spec_count text 1000 100)).
Proof. apply chunk_text_returns_spec, default_step_pos. Qed.

Lemma spec_count_default_bounds (text : str) :
  (Z.of_nat (spec_count text 1000 100) - 1) * 900 < len text
  <= Z.of_nat (spec_count text 1000 100) * 900.
Proof. exact (spec_count_bounds text 1000 100 default_step_pos). Qed.

Lemma spec_count_default (text : str) :
  Z.of_nat (spec_count text 1000 100) = ceil_div (len text) 900.
Proof.
  unfold spec_count. change 900 with 900.
  apply Z2Nat.id, ceil_div_nonneg; [lia|apply len_nonneg].
Qed.

Lemma chunk_text_a1800_run :
  chunk_text_fuel a1800 1000 100 3 =
  Some [ {| index := 0; content := repeat 97%N 1000 |};
         {| index := 1; content := repeat 97%N 900 |} ].
Proof. vm_compute. reflexivity. Qed.

(** C1 (counterexample): on 1800 letters the loop runs twice, at cursors 0
    and 900; the cursor is then 1800, which is not below the length, so no
    third chunk is made and the claim of three chunks fails. *)
Lemma chunk_text_a1800_not_three : ~ three_chunks_claim.
Proof.
  intros [c0 [c1 [c2 [Hret _]]]].
  assert (Htwo : chunk_text_returns a1800 1000 100
                   [ {| index := 0; content := repeat 97%N 1000 |};
                     {| index := 1; content := repeat 97%N 900 |} ])
    by (exists 3%nat; exact chunk_text_a1800_run).
  pose proof (chunk_text_returns_unique _ _ _ _ _ Hret Htwo) as H.
  discriminate H.
Qed.

(** C1 (amended): [chunk_text("a"*1800, 1000, 100)] returns exactly two
    chunks: index 0 with characters [0:1000] and index 1 with characters
    [900:1800], which is the window [900:1900] clipped to the end of the
    text; [strip] changes neither. *)
Theorem chunk_text_a1800_two_chunks :
  chunk_text_returns a1800 1000 100
    [ {| index := 0; content := slice a1800 0 1000 |};
      {| index := 1; content := slice a1800 900 1800 |} ]
  /\ slice a1800 900 1900 = slice a1800 900 1800
  /\ strip (slice a1800 0 1000) = slice a1800 0 1000
  /\ strip (slice a1800 900 1900) = slice a1800 900 1900.
Proof.
  split; [exists 3%nat|repeat split]; vm_compute; reflexivity.
Qed.

(** C2: with the default arguments [chunk_text] returns
    [ceil(len(text)/900)] chunks, the least [k] with [len(text) <= k*900];
    on the empty text the loop leaves at once, in the initial state, and
    the result is the empty list. *)
Theorem chunk_text_count (text : str) :
  (exists r,
      chunk_text_returns text 1000 100 r
      /\ Z.of_nat (length r) = ceil_div (len text) 900
      /\ (Z.of_nat (length r) - 1) * 900 < len text
         <= Z.of_nat (length r) * 900)
  /\ while [] 1000 100 1 init = Some init
  /\ chunk_text_returns [] 1000 100 [].
Proof.
  split; [|split].
  - exists (spec_chunks text 1000 100 (spec_count text 1000 100)).
    rewrite spec_chunks_length.
    split; [apply chunk_text_default|split].
    + apply spec_count_default.
    + apply spec_count_default_bounds.
  - reflexivity.
  - now exists 1%nat.
Qed.

(** C3: with the default arguments [chunk_text] returns
    [ceil(len(text)/900)] chunks, and the chunk at position [i] has index
    [i] and is made from the window [text[i*900 : i*900+1000]], the loop
    being at cursor [i*900] after [i] iterations: 1000 characters from
    position [i*900], or what is left of the text, without padding or
    error; the window of an emitted chunk is never empty.  The window of
    the final chunk is all the text from its start to the end of the
    text.  The first 100 characters of the window of chunk [i+1] are the
    characters of the window of chunk [i] after its first 900. *)
Theorem chunk_text_windows (text : str) :
  exists r,
    chunk_text_returns text 1000 100 r
    /\ Z.of_nat (length r) = ceil_div (len text) 900
    /\ map content r =
       map (fun i => strip (window text 1000 100 i)) (seq 0 (length r))
    /\ (forall i : nat,
          (i < length r)%nat ->
          nth_error r i =
          Some {| index := Z.of_nat i;
                  content := strip (window text 1000 100 i) |}
          /\ 0 < len (window text 1000 100 i))
    /\ (forall i : nat,
          S i = length r ->
          window text 1000 100 i = skipn (i * 900) text
          /\ len (window text 1000 100 i) = len text - Z.of_nat i * 900
          /\ len (window text 1000 100 i) <= 1000)
    /\ (forall i : nat,
          start (iterate text 1000 100 i init) = Z.of_nat i * 900
          /\ window text 1000 100 i =
             slice text (Z.of_nat i * 900) (Z.of_nat i * 900 + 1000)
          /\ window text 1000 100 i = firstn 1000 (skipn (i * 900) text)
          /\ len (window text 1000 100 i) =
             Z.max 0 (Z.min 1000 (len text - Z.of_nat i * 900))
          /\ firstn 100 (window text 1000 100 (S i)) =
             skipn 900 (window text 1000 100 i)).
Proof.
  pose proof (spec_count_default_bounds text) as Hb.
  set (n := spec_count text 1000 100) in *.
  assert (Hlen : forall i,
             len (window text 1000 100 i) =
             Z.max 0 (Z.min 1000 (len text - Z.of_nat i * 900)))
    by exact (window_len text 1000 100 ltac:(easy) ltac:(easy)).
  assert (Hwin : forall i,
             window text 1000 100 i = firstn 1000 (skipn (i * 900) text))
    by exact (window_firstn_skipn text 1000 100 ltac:(easy) ltac:(easy)).
  exists (spec_chunks text 1000 100 n).
  rewrite spec_chunks_length.
  split; [apply chunk_text_default|].
  split; [apply spec_count_default|].
  split; [unfold spec_chunks; now rewrite map_map|].
  split; [|split].
  - intros i Hi. split; [now apply spec_chunks_nth|].
    rewrite Hlen. lia.
  - intros i Hi. rewrite Hlen. split; [|lia].
    rewrite Hwin. apply firstn_all2.
    rewrite length_skipn. unfold len in Hb. lia.
  - intros i. repeat split.
    + rewrite iterate_start. reflexivity.
    + apply Hwin.
    + apply Hlen.
    + exact (window_overlap text 1000 100 ltac:(easy) ltac:(easy) i).
Qed.

(** C4: when [chunk_size - overlap] is positive every iteration moves
    the cursor forward by exactly [chunk_size - overlap], and
    [chunk_text] returns: [ceil(len(text)/(chunk_size - overlap)) + 1]
    units of fuel, or more, reach the exit of the loop. *)
Theorem chunk_text_terminates (text : str) (chunk_size overlap : Z) :
  0 < chunk_size - overlap ->
  (forall st,
      start (loop_body text chunk_size overlap st) =
      start st + (chunk_size - overlap))
  /\ (exists r, chunk_text_returns text chunk_size overlap r)
  /\ (forall fuel,
        (spec_count text chunk_size overlap < fuel)%nat ->
        exists r, chunk_text_fuel text chunk_size overlap fuel = Some r).
Proof.
  intros Hstep. split; [|split].
  - apply loop_body_start.
  - eexists. apply chunk_text_returns_spec, Hstep.
  - intros fuel Hfuel. eexists.
    apply chunk_text_fuel_spec; assumption.
Qed.

Lemma chunk_text_terminates_witness :
  0 < 1000 - 100
  /\ (forall st,
        start (loop_body (lit "abcdef") 1000 100 st) =
        start st + (1000 - 100))
  /\ (exists r, chunk_text_returns (lit "abcdef") 1000 100 r)
  /\ (forall fuel,
        (spec_count (lit "abcdef") 1000 100 < fuel)%nat ->
        exists r, chunk_text_fuel (lit "abcdef") 1000 100 fuel = Some r).
Proof.
  split; [reflexivity|].
  apply (chunk_text_terminates (lit "abcdef") 1000 100). reflexivity.
Defined.

(** Without a positive step the loop never leaves on a non-empty text:
    the fuel is not what makes [chunk_text] return. *)
Lemma chunk_text_diverges_nonpositive_step
  (text : str) (chunk_size overlap : Z) :
  chunk_size - overlap <= 0 -> text <> [] ->
  chunk_text_diverges text chunk_size overlap.
Proof.
  intros Hstep Hne fuel. unfold chunk_text_fuel.
  rewrite while_stuck; [reflexivity|].
  intros j. simpl. destruct text; [congruence|].
  unfold len. simpl length. nia.
Qed.

(** C7: the chunk at position [i] of the result has index [i]: the
    indices are 0, 1, 2, ... in the order produced; on a non-empty text
    the first chunk has index 0, and each further chunk has the index of
    the chunk before it plus 1. *)
Theorem chunk_text_indices (text : str) :
  exists r,
    chunk_text_returns text 1000 100 r
    /\ map index r = map Z.of_nat (seq 0 (length r))
    /\ (text <> [] -> exists c rest, r = c :: rest /\ index c = 0)
    /\ (forall i c c',
          nth_error r i = Some c -> nth_error r (S i) = Some c' ->
          index c' = index c + 1).
Proof.
  set (n := spec_count text 1000 100).
  exists (spec_chunks text 1000 100 n).
  split; [apply chunk_text_default|].
  rewrite spec_chunks_length. split; [apply spec_chunks_index|split].
  - intros Hne.
    assert (Hn : (0 < n)%nat).
    { pose proof (spec_count_default_bounds text) as Hb. fold n in Hb.
      destruct text; [congruence|]. unfold len in Hb. simpl length in Hb.
      lia. }
    destruct n as [|n']; [lia|].
    unfold spec_chunks. simpl. eauto.
  - intros i c c' Hc Hc'.
    assert (Hi : (S i < n)%nat).
    { rewrite <- (spec_chunks_length text 1000 100 n).
      apply nth_error_Some. congruence. }
    rewrite spec_chunks_nth in Hc, Hc' by lia.
    inversion Hc. inversion Hc'. simpl. lia.
Qed.

(** C8: with the default arguments, at every position [i] below the
    number of windows a chunk is emitted, whatever its window holds; its
    content is the window [text[i*900 : i*900+1000]] stripped, which is
    a contiguous part of the text, has no whitespace at either end and at
    most 1000 characters, and is the empty string when the window is all
    whitespace. *)
Theorem chunk_text_content (text : str) :
  exists r,
    chunk_text_returns text 1000 100 r
    /\ length r = spec_count text 1000 100
    /\ forall i : nat,
         (i < spec_count text 1000 100)%nat ->
         exists c,
           nth_error r i = Some c
           /\ content c =
              strip (slice text (Z.of_nat i * 900) (Z.of_nat i * 900 + 1000))
           /\ contains text (content c)
           /\ no_outer_space (content c)
           /\ len (content c) <= 1000
           /\ (forallb isspace
                 (slice text (Z.of_nat i * 900) (Z.of_nat i * 900 + 1000))
               = true -> content c = []).
Proof.
  exists (spec_chunks text 1000 100 (spec_count text 1000 100)).
  split; [apply chunk_text_default|].
  split; [apply spec_chunks_length|].
  intros i Hi. eexists. split; [apply spec_chunks_nth, Hi|].
  cbn [content]. change (window text 1000 100 i) with
    (slice text (Z.of_nat i * 900) (Z.of_nat i * 900 + 1000)).
  set (w := slice _ _ _).
  split; [reflexivity|split; [|split; [|split]]].
  - eapply contains_trans; [apply slice_contains|apply strip_contains].
  - apply strip_no_outer_space.
  - pose proof (contains_length _ _ (strip_contains w)) as Hle.
    assert (Hw : len w <= 1000).
    { unfold w. rewrite slice_len by lia. lia. }
    lia.
  - apply strip_all_space.
Qed.

(** C10: with the default arguments every position [p] of the text is
    inside the window of an emitted chunk (the one with index [p / 900]
    is such a chunk): the character at [p] is the character of that window
    at offset [p - i*900]. *)
Theorem chunk_text_covers_text (text : str) (p : Z) :
  0 <= p < len text ->
  exists r i c,
    chunk_text_returns text 1000 100 r
    /\ nth_error r i = Some c
    /\ content c = strip (window text 1000 100 i)
    /\ covers text 1000 100 i p
    /\ exists ch,
         nth_error text (Z.to_nat p) = Some ch
         /\ nth_error (window text 1000 100 i)
              (Z.to_nat (p - Z.of_nat i * 900)) = Some ch.
Proof.
  intros Hp.
  destruct (covers_exists text 1000 100 ltac:(easy) ltac:(easy) p Hp)
    as [i [Hi Hcov]].
  exists (spec_chunks text 1000 100 (spec_count text 1000 100)), i.
  eexists. split; [apply chunk_text_default|].
  split; [apply spec_chunks_nth, Hi|].
  split; [reflexivity|split; [exact Hcov|]].
  exact (covers_window text 1000 100 ltac:(easy) ltac:(easy) i p Hcov).
Qed.

Lemma chunk_text_covers_text_witness :
  0 <= 3 < len (lit "abcdef")
  /\ exists r i c,
       chunk_text_returns (lit "abcdef") 1000 100 r
       /\ nth_error r i = Some c
       /\ content c = strip (window (lit "abcdef") 1000 100 i)
       /\ covers (lit "abcdef") 1000 100 i 3
       /\ exists ch,
            nth_error (lit "abcdef") (Z.to_nat 3) = Some ch
            /\ nth_error (window (lit "abcdef") 1000 100 i)
                 (Z.to_nat (3 - Z.of_nat i * 900)) = Some ch.
Proof.
  assert (H : 0 <= 3 < len (lit "abcdef")) by (vm_compute; split; congruence).
  split; [exact H|].
  exact (chunk_text_covers_text (lit "abcdef") 3 H).
Defined.

(** ** [extract_text] *)

Section ExtractFacts.

Context {path page ext_error : Type}.
Variable w : World path page ext_error.

(** The page loop raises nothing of its own. *)
Lemma pages_loop_no_exception (pages : list page) :
  forall (text msg : str), pages_loop w pages text <> Err (Exception msg).
Proof.
  induction pages as [|pg rest IH]; intros text msg; simpl.
  - discriminate.
  - destruct (page_extract_text w pg) as [t|e]; simpl.
    + apply IH.
    + discriminate.
Qed.

Lemma pages_loop_spec (pages : list page) (texts : list (option str)) :
  Forall2 (fun pg t => page_extract_text w pg = Ok t) pages texts ->
  forall text, pages_loop w pages text = Ok (text ++ spec_pdf_text texts).
Proof.
  induction 1 as [|pg t pages texts Hpg _ IH]; intros text; simpl.
  - now rewrite app_nil_r.
  - rewrite Hpg. simpl. rewrite IH. f_equal.
    unfold spec_pdf_text. destruct t as [s|]; simpl.
    + destruct (truthy s); simpl; [|reflexivity].
      now rewrite <- !app_assoc.
    + reflexivity.
Qed.

Lemma text_prefix_not_pdf (m : str) :
  startswith m text_prefix = true ->
  eqb m mime_pdf = false /\ existsb (eqb m) [mime_docx; mime_doc] = false.
Proof.
  destruct m as [|c m]; [discriminate|].
  cbn [startswith text_prefix lit]. unfold char_eqb.
  rewrite andb_true_iff, N.eqb_eq. intros [-> _].
  split; reflexivity.
Qed.

(** C5: [extract_text] raises its own exception exactly when the MIME
    type is not "application/pdf", is neither of the two Word types and
    does not start with "text/"; the message is then
    "Unsupported file type: " followed by the MIME type, so it contains
    it; "application/unknown" is such a type. *)
Theorem extract_text_unsupported (file_path : path) (mime_type : str) :
  ((exists msg, extract_text w file_path mime_type = Err (Exception msg))
   <-> (mime_type <> mime_pdf
        /\ mime_type <> mime_docx /\ mime_type <> mime_doc
        /\ startswith mime_type text_prefix = false))
  /\ (forall msg,
        extract_text w file_path mime_type = Err (Exception msg) ->
        msg = unsupported_prefix ++ mime_type /\ contains msg mime_type)
  /\ (exists msg,
        extract_text w file_path (lit "application/unknown")
        = Err (Exception msg)
        /\ contains msg (lit "application/unknown")).
Proof.
  assert (Hraise : forall msg,
            extract_text w file_path mime_type = Err (Exception msg) ->
            (mime_type <> mime_pdf
             /\ mime_type <> mime_docx /\ mime_type <> mime_doc
             /\ startswith mime_type text_prefix = false)
            /\ msg = unsupported_prefix ++ mime_type).
  { intros msg. unfold extract_text. cbn [existsb].
    destruct (eqb mime_type mime_pdf) eqn:Epdf;
      [|destruct (eqb mime_type mime_docx) eqn:Edocx;
        [|destruct (eqb mime_type mime_doc) eqn:Edoc;
          [|destruct (startswith mime_type text_prefix) eqn:Etext]]];
      cbn [orb].
    - destruct (pdf_pages w file_path) as [pages|e]; cbn [call bind].
      + intros H. now apply pages_loop_no_exception in H.
      + discriminate.
    - destruct (docx2txt_process w file_path); discriminate.
    - destruct (docx2txt_process w file_path); discriminate.
    - destruct (read_utf8 w file_path); discriminate.
    - intros H. inversion H.
      apply eqb_neq in Epdf, Edocx, Edoc. auto. }
  split; [split|split].
  - intros [msg H]. now apply Hraise in H.
  - intros (Hpdf & Hdocx & Hdoc & Htext).
    exists (unsupported_prefix ++ mime_type).
    apply eqb_neq in Hpdf, Hdocx, Hdoc.
    unfold extract_text. cbn [existsb].
    now rewrite Hpdf, Hdocx, Hdoc, Htext.
  - intros msg H. apply Hraise in H. destruct H as [_ ->].
    split; [reflexivity|].
    exists unsupported_prefix, []. now rewrite app_nil_r.
  - eexists. split; [reflexivity|].
    exists unsupported_prefix, []. now rewrite app_nil_r.
Qed.

(** C6: for "application/pdf", when the file opens as a PDF and its
    pages yield [texts] (a string or nothing each), [extract_text]
    returns the non-empty page texts in page order, each followed by one
    newline; pages without text add nothing.  Two pages that yield
    "Hello" and "World" give "Hello", newline, "World", newline. *)
Theorem extract_text_pdf
  (file_path : path) (pages : list page) (texts : list (option str)) :
  pdf_pages w file_path = Ok pages ->
  Forall2 (fun pg t => page_extract_text w pg = Ok t) pages texts ->
  extract_text w file_path mime_pdf = Ok (spec_pdf_text texts)
  /\ spec_pdf_text [Some (lit "Hello"); Some (lit "World")]
     = lit "Hello" ++ newline ++ lit "World" ++ newline
  /\ spec_pdf_text [Some (lit "Hello"); None; Some []; Some (lit "World")]
     = lit "Hello" ++ newline ++ lit "World" ++ newline.
Proof.
  intros Hopen Hpages. split; [|split; reflexivity].
  unfold extract_text. cbn [eqb]. change (eqb mime_pdf mime_pdf) with true.
  cbv iota. rewrite Hopen. simpl.
  now rewrite (pages_loop_spec pages texts Hpages).
Qed.

(** C9: for a MIME type that starts with "text/", [extract_text] is the
    read of the whole file as UTF-8 text and nothing else: it returns the
    string that was read, unchanged. *)
Theorem extract_text_plain (file_path : path) (mime_type : str) :
  startswith mime_type text_prefix = true ->
  extract_text w file_path mime_type = call (read_utf8 w file_path)
  /\ (forall s,
        read_utf8 w file_path = Ok s ->
        extract_text w file_path mime_type = Ok s).
Proof.
  intros Htext.
  destruct (text_prefix_not_pdf mime_type Htext) as [Hpdf Hword].
  assert (H : extract_text w file_path mime_type
              = call (read_utf8 w file_path)).
  { unfold extract_text. now rewrite Hpdf, Hword, Htext. }
  split; [exact H|].
  intros s Hs. now rewrite H, Hs.
Qed.

End ExtractFacts.

Lemma extract_text_pdf_witness :
  extract_text sample_world tt mime_pdf
  = Ok (lit "Hello" ++ newline ++ lit "World" ++ newline).
Proof.
  exact (proj1 (extract_text_pdf sample_world tt
                  [Some (lit "Hello"); Some (lit "World")]
                  [Some (lit "Hello"); Some (lit "World")]
                  eq_refl
                  (Forall2_cons _ _ eq_refl
                     (Forall2_cons _ _ eq_refl (Forall2_nil _))))).
Defined.

Lemma extract_text_plain_witness :
  startswith (lit "text/plain") text_prefix = true
  /\ extract_text sample_world tt (lit "text/plain") = Ok (lit "plain text").
Proof.
  split; [reflexivity|].
  exact (proj2 (extract_text_plain sample_world tt (lit "text/plain")
                  eq_refl)
               (lit "plain text") eq_refl).
Defined.

(** * Further properties *)

(** ** [chunk_text] with any arguments *)

Lemma firstn_plus {A : Type} (a b : nat) (l : list A) :
  firstn (a + b) l = firstn a l ++ firstn b (skipn a l).
Proof.
  revert l. induction a as [|a IH]; intros [|x l]; simpl;
    rewrite ?firstn_nil; try reflexivity.
  now rewrite IH.
Qed.

(** Pieces of [k] characters taken every [k] characters are the text up
    to the last piece. *)
Lemma pieces_firstn {A : Type} (k n : nat) (l : list A) :
  flat_map (fun i => firstn k (skipn (i * k) l)) (seq 0 n)
  = firstn (n * k) l.
Proof.
  induction n as [|n IH]; [reflexivity|].
  rewrite seq_S, flat_map_app, IH. simpl flat_map. rewrite app_nil_r.
  simpl Nat.mul. rewrite (Nat.add_comm k (n * k)).
  symmetry. apply firstn_plus.
Qed.

Lemma spec_count_one (text : str) (chunk_size overlap : Z) :
  0 < len text <= chunk_size - overlap ->
  spec_count text chunk_size overlap = 1%nat.
Proof.
  intros H. unfold spec_count.
  rewrite (ceil_div_unique _ _ 1); [reflexivity|lia|lia].
Qed.

(** X1: for every pair of arguments with [chunk_size - overlap]
    positive, [chunk_text] returns [ceil(len(text)/(chunk_size-overlap))]
    chunks, and the chunk at position [i] has index [i] and content
    [text[i*step : i*step+chunk_size].strip()], [step] being
    [chunk_size - overlap]. *)
Theorem chunk_text_closed_form (text : str) (chunk_size overlap : Z) :
  0 < chunk_size - overlap ->
  exists r,
    chunk_text_returns text chunk_size overlap r
    /\ Z.of_nat (length r) = ceil_div (len text) (chunk_size - overlap)
    /\ forall i : nat,
         (i < length r)%nat ->
         nth_error r i =
         Some {| index := Z.of_nat i;
                 content :=
                   strip (slice text
                            (Z.of_nat i * (chunk_size - overlap))
                            (Z.of_nat i * (chunk_size - overlap)
                             + chunk_size)) |}.
Proof.
  intros Hstep.
  exists (spec_chunks text chunk_size overlap
            (spec_count text chunk_size overlap)).
  rewrite spec_chunks_length.
  split; [apply chunk_text_returns_spec, Hstep|split].
  - unfold spec_count. apply Z2Nat.id, ceil_div_nonneg;
      [assumption|apply len_nonneg].
  - intros i Hi. now apply spec_chunks_nth.
Qed.

Lemma chunk_text_closed_form_witness :
  exists r,
    chunk_text_returns (lit "abcdefgh") 4 1 r
    /\ Z.of_nat (length r) = ceil_div (len (lit "abcdefgh")) (4 - 1)
    /\ forall i : nat,
         (i < length r)%nat ->
         nth_error r i =
         Some {| index := Z.of_nat i;
                 content :=
                   strip (slice (lit "abcdefgh")
                            (Z.of_nat i * (4 - 1))
                            (Z.of_nat i * (4 - 1) + 4)) |}.
Proof.
  exact (chunk_text_closed_form (lit "abcdefgh") 4 1 eq_refl).
Defined.

(** X2: [chunk_text] returns exactly when the text is empty or
    [chunk_size - overlap] is positive; on a non-empty text with
    [chunk_size <= overlap] the loop never leaves.  On the empty text it
    returns the empty list whatever the arguments. *)
Theorem chunk_text_returns_iff (text : str) (chunk_size overlap : Z) :
  ((exists r, chunk_text_returns text chunk_size overlap r)
   <-> (text = [] \/ 0 < chunk_size - overlap))
  /\ (chunk_text_diverges text chunk_size overlap
      <-> (text <> [] /\ chunk_size - overlap <= 0))
  /\ chunk_text_returns [] chunk_size overlap [].
Proof.
  assert (Hempty : chunk_text_returns [] chunk_size overlap [])
    by (now exists 1%nat).
  assert (Hterm : text = [] \/ 0 < chunk_size - overlap ->
                  exists r, chunk_text_returns text chunk_size overlap r).
  { intros [->|Hstep]; [now exists []|].
    eexists. apply chunk_text_returns_spec, Hstep. }
  split; [split|split; [split|]].
  - intros [r [fuel Hr]].
    destruct text as [|c text]; [now left|right].
    destruct (Z_lt_le_dec 0 (chunk_size - overlap)) as [Hpos|Hneg];
      [assumption|].
    rewrite (chunk_text_diverges_nonpositive_step
               (c :: text) chunk_size overlap Hneg ltac:(discriminate) fuel)
      in Hr. discriminate.
  - exact Hterm.
  - intros Hdiv. split.
    + intros ->. specialize (Hdiv 1%nat). discriminate.
    + destruct (Z_lt_le_dec 0 (chunk_size - overlap)) as [Hpos|Hneg];
        [|assumption].
      destruct (Hterm (or_intror Hpos)) as [r [fuel Hr]].
      rewrite Hdiv in Hr. discriminate.
  - intros [Hne Hneg].
    now apply chunk_text_diverges_nonpositive_step.
  - exact Hempty.
Qed.

(** X3: a non-empty text of at most [chunk_size - overlap] characters
    (900 by default), with [overlap] not negative, gives exactly one
    chunk, with index 0 and the whole text stripped as content. *)
Theorem chunk_text_short_text (text : str) (chunk_size overlap : Z) :
  0 <= overlap ->
  0 < len text <= chunk_size - overlap ->
  chunk_text_returns text chunk_size overlap
    [ {| index := 0; content := strip text |} ].
Proof.
  intros Hov Hlen.
  pose proof (chunk_text_returns_spec text chunk_size overlap
                ltac:(lia)) as H.
  rewrite spec_count_one in H by assumption.
  unfold spec_chunks, window in H. simpl in H.
  rewrite slice_firstn_skipn in H by lia.
  simpl in H. rewrite firstn_all2 in H by (unfold len in Hlen; lia).
  exact H.
Qed.

Lemma chunk_text_short_text_witness :
  chunk_text_returns (lit "  abcdef ") 1000 100
    [ {| index := 0; content := lit "abcdef" |} ].
Proof.
  assert (E : lit "abcdef" = strip (lit "  abcdef "))
    by (vm_compute; reflexivity).
  rewrite E. apply chunk_text_short_text.
  - discriminate.
  - split; [reflexivity|vm_compute; discriminate].
Defined.

Lemma flat_map_ext_in {A B : Type} (f g : A -> list B) (l : list A) :
  (forall a, In a l -> f a = g a) -> flat_map f l = flat_map g l.
Proof.
  induction l as [|a l IH]; intros H; simpl; [reflexivity|].
  rewrite (H a) by now left. rewrite IH; [reflexivity|].
  intros b Hb. apply H. now right.
Qed.

Lemma flat_map_map {A B C : Type} (f : B -> list C) (g : A -> B)
  (l : list A) :
  flat_map f (map g l) = flat_map (fun a => f (g a)) l.
Proof.
  induction l as [|a l IH]; simpl; [reflexivity|]. now rewrite IH.
Qed.

(** X4: with the default arguments, when the text ends at most 100
    characters after the start of the window of chunk [i+1], that chunk
    is the last one and its window is the window of chunk [i] without
    its first 900 characters: the last chunk holds only text that the
    chunk before it already has. *)
Theorem chunk_text_last_chunk_repeats (text : str) (i : nat) :
  (S i < spec_count text 1000 100)%nat ->
  len text <= Z.of_nat (S i) * 900 + 100 ->
  exists r,
    chunk_text_returns text 1000 100 r
    /\ length r = S (S i)
    /\ nth_error r i =
       Some {| index := Z.of_nat i;
               content := strip (window text 1000 100 i) |}
    /\ nth_error r (S i) =
       Some {| index := Z.of_nat (S i);
               content := strip (skipn 900 (window text 1000 100 i)) |}.
Proof.
  intros Hi Hlen.
  pose proof (spec_count_default_bounds text) as Hb.
  set (n := spec_count text 1000 100) in *.
  assert (Hn : n = S (S i)) by lia.
  exists (spec_chunks text 1000 100 n).
  split; [apply chunk_text_default|].
  split; [now rewrite spec_chunks_length|].
  split; [apply spec_chunks_nth; lia|].
  rewrite spec_chunks_nth by lia.
  pose proof (window_overlap text 1000 100 ltac:(easy) ltac:(easy) i)
    as Hov.
  change (Z.to_nat 100) with 100%nat in Hov.
  change (Z.to_nat (1000 - 100)) with 900%nat in Hov.
  rewrite <- Hov.
  rewrite firstn_all2; [reflexivity|].
  pose proof (window_len text 1000 100 ltac:(easy) ltac:(easy) (S i))
    as Hl.
  unfold len in Hl, Hlen. change (1000 - 100) with 900 in Hl. lia.
Qed.

Lemma chunk_text_last_chunk_repeats_witness :
  exists r,
    chunk_text_returns (repeat 97%N 950) 1000 100 r
    /\ length r = 2%nat
    /\ nth_error r 0 =
       Some {| index := 0;
               content := strip (window (repeat 97%N 950) 1000 100 0) |}
    /\ nth_error r 1 =
       Some {| index := 1;
               content :=
                 strip (skipn 900 (window (repeat 97%N 950) 1000 100 0)) |}.
Proof.
  apply (chunk_text_last_chunk_repeats (repeat 97%N 950) 0).
  - vm_compute. lia.
  - vm_compute. congruence.
Defined.

(** X5: for arguments with [0 <= overlap < chunk_size], when [strip]
    changes no window of the text, the text is got back from the chunks:
    the first [chunk_size - overlap] characters of every content, in
    order, are the text. *)
Theorem chunk_text_rejoin (text : str) (chunk_size overlap : Z) :
  0 <= overlap < chunk_size ->
  (forall i : nat,
      (i < spec_count text chunk_size overlap)%nat ->
      strip (window text chunk_size overlap i)
      = window text chunk_size overlap i) ->
  exists r,
    chunk_text_returns text chunk_size overlap r
    /\ rejoin chunk_size overlap r = text.
Proof.
  intros [Hov Hcs] Hstrip.
  set (n := spec_count text chunk_size overlap) in *.
  exists (spec_chunks text chunk_size overlap n).
  split; [apply chunk_text_returns_spec; lia|].
  unfold rejoin, spec_chunks. rewrite flat_map_map. cbn [content].
  set (k := Z.to_nat (chunk_size - overlap)).
  rewrite (flat_map_ext_in _ (fun i => firstn k (skipn (i * k) text))).
  - rewrite pieces_firstn. apply firstn_all2.
    pose proof (spec_count_bounds text chunk_size overlap ltac:(lia))
      as Hb. fold n in Hb. unfold len in Hb. unfold k. nia.
  - intros i Hin. apply in_seq in Hin.
    rewrite Hstrip by lia.
    rewrite window_firstn_skipn by lia.
    rewrite firstn_firstn. fold k. f_equal. unfold k. lia.
Qed.

Lemma chunk_text_rejoin_witness :
  exists r,
    chunk_text_returns (lit "ab cd ef") 4 1 r
    /\ rejoin 4 1 r = lit "ab cd ef".
Proof.
  apply (chunk_text_rejoin (lit "ab cd ef") 4 1).
  - split; [discriminate|reflexivity].
  - intros i Hi.
    change (spec_count (lit "ab cd ef") 4 1) with 3%nat in Hi.
    destruct i as [|[|[|i]]]; [reflexivity|reflexivity|reflexivity|lia].
Defined.

(** The chunk at position [i] of the result is the one the loop makes
    in its iteration [i], from the slice at the cursor it has then. *)
Lemma spec_chunks_nth_cursor
  (text : str) (chunk_size overlap : Z) (n i : nat) (c : Chunk) :
  nth_error (spec_chunks text chunk_size overlap n) i = Some c ->
  (i < n)%nat
  /\ index c = Z.of_nat i
  /\ start (iterate text chunk_size overlap i init)
     = Z.of_nat i * (chunk_size - overlap)
  /\ content c =
     strip (slice text
              (start (iterate text chunk_size overlap i init))
              (start (iterate text chunk_size overlap i init)
               + chunk_size)).
Proof.
  intros Hc.
  assert (Hi : (i < n)%nat).
  { rewrite <- (spec_chunks_length text chunk_size overlap n).
    apply nth_error_Some. congruence. }
  rewrite spec_chunks_nth in Hc by assumption.
  injection Hc as <-. rewrite iterate_start. cbn [index content start init].
  unfold window.
  repeat split; try assumption; try lia; do 2 f_equal; lia.
Qed.

(** X6: with the default arguments, two iterations of the loop whose
    slices [text[start : start+1000]] both hold the same position of the
    text are the same iteration or consecutive ones, so a character is in
    the source slice of at most two chunks; both iterations happen, and
    their chunks are at these positions of the result. *)
Theorem chunk_text_at_most_two_windows (text : str) (i j : nat) (p : Z) :
  p < len text ->
  start (iterate text 1000 100 i init) <= p
    < start (iterate text 1000 100 i init) + 1000 ->
  start (iterate text 1000 100 j init) <= p
    < start (iterate text 1000 100 j init) + 1000 ->
  exists r c c',
    chunk_text_returns text 1000 100 r
    /\ nth_error r i = Some c
    /\ nth_error r j = Some c'
    /\ content c =
       strip (slice text (start (iterate text 1000 100 i init))
                (start (iterate text 1000 100 i init) + 1000))
    /\ content c' =
       strip (slice text (start (iterate text 1000 100 j init))
                (start (iterate text 1000 100 j init) + 1000))
    /\ (i = j \/ i = S j \/ j = S i).
Proof.
  intros Hp Hi Hj.
  pose proof (spec_count_default_bounds text) as Hb.
  set (n := spec_count text 1000 100) in *.
  pose proof (iterate_start text 1000 100 i init) as Ei.
  pose proof (iterate_start text 1000 100 j init) as Ej.
  cbn [start init] in Ei, Ej.
  assert (Hin : (i < n)%nat) by lia.
  assert (Hjn : (j < n)%nat) by lia.
  exists (spec_chunks text 1000 100 n).
  do 2 eexists.
  split; [apply chunk_text_default|].
  split; [apply spec_chunks_nth, Hin|].
  split; [apply spec_chunks_nth, Hjn|].
  cbn [content]. unfold window. rewrite Ei, Ej.
  split; [do 2 f_equal; lia|].
  split; [do 2 f_equal; lia|]. lia.
Qed.

Lemma chunk_text_at_most_two_windows_witness :
  exists r c c',
    chunk_text_returns (repeat 97%N 1000) 1000 100 r
    /\ nth_error r 0 = Some c
    /\ nth_error r 1 = Some c'
    /\ content c =
       strip (slice (repeat 97%N 1000)
                (start (iterate (repeat 97%N 1000) 1000 100 0 init))
                (start (iterate (repeat 97%N 1000) 1000 100 0 init)
                 + 1000))
    /\ content c' =
       strip (slice (repeat 97%N 1000)
                (start (iterate (repeat 97%N 1000) 1000 100 1 init))
                (start (iterate (repeat 97%N 1000) 1000 100 1 init)
                 + 1000))
    /\ (0 = 1 \/ 0 = 2 \/ 1 = 1)%nat.
Proof.
  apply (chunk_text_at_most_two_windows (repeat 97%N 1000) 0 1 950).
  - vm_compute. reflexivity.
  - split; vm_compute; congruence.
  - split; vm_compute; congruence.
Defined.

(** X7: with a negative [overlap] and [0 < chunk_size < len(text)] the
    result leaves text out: every chunk of the result is made from a
    slice of [chunk_size] characters at a cursor that is 0 or beyond
    [chunk_size], so the character at position [chunk_size] is in the
    slice of no chunk. *)
Theorem chunk_text_negative_overlap_gap
  (text : str) (chunk_size overlap : Z) :
  overlap < 0 -> 0 < chunk_size < len text ->
  exists r,
    chunk_text_returns text chunk_size overlap r
    /\ (0 < length r)%nat
    /\ forall (i : nat) (c : Chunk),
         nth_error r i = Some c ->
         content c =
         strip (slice text
                  (start (iterate text chunk_size overlap i init))
                  (start (iterate text chunk_size overlap i init)
                   + chunk_size))
         /\ slice text
              (start (iterate text chunk_size overlap i init))
              (start (iterate text chunk_size overlap i init)
               + chunk_size)
            = firstn (Z.to_nat chunk_size)
                (skipn (i * Z.to_nat (chunk_size - overlap)) text)
         /\ (i = O \/
             (Z.to_nat chunk_size
              < i * Z.to_nat (chunk_size - overlap))%nat).
Proof.
  intros Hov Hcs.
  pose proof (spec_count_bounds text chunk_size overlap ltac:(lia))
    as Hb.
  set (n := spec_count text chunk_size overlap) in *.
  exists (spec_chunks text chunk_size overlap n).
  rewrite spec_chunks_length.
  split; [apply chunk_text_returns_spec; lia|].
  split.
  - lia.
  - intros i c Hc.
    apply spec_chunks_nth_cursor in Hc.
    destruct Hc as (Hi & _ & Hstart & Hcontent).
    split; [exact Hcontent|]. rewrite Hstart.
    split.
    + rewrite slice_firstn_skipn by nia.
      f_equal; [f_equal; lia|f_equal].
      rewrite Z2Nat.inj_mul by lia. now rewrite Nat2Z.id.
    + destruct i as [|i]; [now left|right]. nia.
Qed.

Lemma chunk_text_negative_overlap_gap_witness :
  exists r,
    chunk_text_returns (lit "abcdefgh") 3 (-2) r
    /\ (0 < length r)%nat
    /\ forall (i : nat) (c : Chunk),
         nth_error r i = Some c ->
         content c =
         strip (slice (lit "abcdefgh")
                  (start (iterate (lit "abcdefgh") 3 (-2) i init))
                  (start (iterate (lit "abcdefgh") 3 (-2) i init) + 3))
         /\ slice (lit "abcdefgh")
              (start (iterate (lit "abcdefgh") 3 (-2) i init))
              (start (iterate (lit "abcdefgh") 3 (-2) i init) + 3)
            = firstn (Z.to_nat 3)
                (skipn (i * Z.to_nat (3 - -2)) (lit "abcdefgh"))
         /\ (i = O \/ (Z.to_nat 3 < i * Z.to_nat (3 - -2))%nat).
Proof.
  apply (chunk_text_negative_overlap_gap (lit "abcdefgh") 3 (-2)).
  - reflexivity.
  - split; reflexivity.
Defined.

(** A character that is not whitespace and sits at offset [o] of [s]
    sits at offset [o - lead] of [s.strip()], [lead] being the number of
    characters stripped in front. *)
Lemma strip_keeps_nonspace (s : str) (o : nat) (ch : char) :
  nth_error s o = Some ch -> isspace ch = false ->
  exists lead k rest,
    s = firstn lead s ++ strip s ++ rest
    /\ length (firstn lead s) = lead
    /\ o = (lead + k)%nat
    /\ nth_error (strip s) k = Some ch.
Proof.
  intros Hnth Hch.
  destruct (strip_split s) as [pre [post [Hs [Hpre Hpost]]]].
  assert (Hnot : forall l, forallb isspace l = true -> ~ In ch l).
  { intros l Hl Hin. rewrite forallb_forall in Hl.
    apply Hl in Hin. congruence. }
  exists (length pre), (o - length pre)%nat, post.
  assert (Hfirst : firstn (length pre) s = pre).
  { rewrite Hs at 1. rewrite firstn_app, firstn_all, Nat.sub_diag.
    simpl. apply app_nil_r. }
  rewrite Hfirst. split; [exact Hs|split; [reflexivity|]].
  rewrite Hs in Hnth.
  destruct (Nat.lt_ge_cases o (length pre)) as [Hlt|Hge].
  - rewrite nth_error_app1 in Hnth by assumption.
    apply nth_error_In in Hnth. now apply Hnot in Hnth.
  - rewrite nth_error_app2 in Hnth by assumption.
    split; [lia|].
    destruct (Nat.lt_ge_cases (o - length pre) (length (strip s)))
      as [Hlt'|Hge'].
    + now rewrite nth_error_app1 in Hnth.
    + rewrite nth_error_app2 in Hnth by assumption.
      apply nth_error_In in Hnth. now apply Hnot in Hnth.
Qed.

(** X8: for arguments with [0 <= overlap < chunk_size], every
    character of the text that is not whitespace is in the content of a
    chunk: the character at position [p] is the character at offset [k]
    of a content that sits in the text at position [p - k]. *)
Theorem chunk_text_keeps_nonspace
  (text : str) (chunk_size overlap : Z) (p : nat) (ch : char) :
  0 <= overlap < chunk_size ->
  nth_error text p = Some ch -> isspace ch = false ->
  exists r i c k,
    chunk_text_returns text chunk_size overlap r
    /\ nth_error r i = Some c
    /\ nth_error (content c) k = Some ch
    /\ (k <= p)%nat
    /\ firstn (length (content c)) (skipn (p - k) text) = content c.
Proof.
  intros [Hov Hcs] Hnth Hch.
  assert (Hp : 0 <= Z.of_nat p < len text).
  { unfold len. split; [lia|]. apply inj_lt, nth_error_Some. congruence. }
  destruct (covers_exists text chunk_size overlap Hov Hcs _ Hp)
    as [i [Hi [Hlo Hhi]]].
  set (k := Z.to_nat (chunk_size - overlap)) in *.
  assert (Hk : Z.of_nat k = chunk_size - overlap) by (unfold k; lia).
  pose proof (window_firstn_skipn text chunk_size overlap Hov Hcs i)
    as Hw. fold k in Hw.
  set (w := window text chunk_size overlap i) in *.
  assert (Hoff : nth_error w (p - i * k) = Some ch).
  { rewrite Hw, nth_error_firstn, nth_error_skipn.
    replace (_ <? _)%nat with true by (symmetry; apply Nat.ltb_lt; nia).
    rewrite <- Hnth. f_equal. nia. }
  destruct (strip_keeps_nonspace w _ ch Hoff Hch)
    as [lead [j [rest [Hsplit [Hlead [Hj Hin]]]]]].
  exists (spec_chunks text chunk_size overlap
            (spec_count text chunk_size overlap)), i.
  eexists. exists j.
  split; [apply chunk_text_returns_spec; lia|].
  split; [apply spec_chunks_nth, Hi|]. cbn [content]. fold w.
  split; [exact Hin|split; [lia|]].
  replace (p - j)%nat with (lead + i * k)%nat by nia.
  rewrite <- skipn_skipn.
  rewrite <- (firstn_skipn (Z.to_nat chunk_size) (skipn (i * k) text)).
  rewrite <- Hw. rewrite Hsplit at 2.
  rewrite <- app_assoc, skipn_app, <- Hlead at 1.
  rewrite skipn_all, Hlead, Nat.sub_diag. simpl skipn. simpl app.
  rewrite <- app_assoc, firstn_app, firstn_all, Nat.sub_diag.
  simpl. apply app_nil_r.
Qed.

Lemma chunk_text_keeps_nonspace_witness :
  exists r i c k,
    chunk_text_returns (lit " ab cd ") 4 1 r
    /\ nth_error r i = Some c
    /\ nth_error (content c) k = Some 100%N
    /\ (k <= 5)%nat
    /\ firstn (length (content c)) (skipn (5 - k) (lit " ab cd "))
       = content c.
Proof.
  apply (chunk_text_keeps_nonspace (lit " ab cd ") 4 1 5 100%N).
  - split; [discriminate|reflexivity].
  - reflexivity.
  - reflexivity.
Defined.

(** ** [extract_text]: the Word branch, failures, exact matching *)

Section ExtractMore.

Context {path page ext_error : Type}.
Variable w : World path page ext_error.

Lemma pages_loop_error (pre : list page) (texts : list (option str))
  (pg : page) (post : list page) (e : ext_error) :
  Forall2 (fun q t => page_extract_text w q = Ok t) pre texts ->
  page_extract_text w pg = Err e ->
  forall text, pages_loop w (pre ++ pg :: post) text = Err (External e).
Proof.
  intros Hpre Hpg.
  induction Hpre as [|q t pre texts Hq _ IH]; intros text; simpl.
  - now rewrite Hpg.
  - rewrite Hq. simpl. apply IH.
Qed.

(** X10: for either Word MIME type [extract_text] is the call of
    [docx2txt.process] on the path and nothing else: its string is
    returned as it is, its failure is the failure of [extract_text]. *)
Theorem extract_text_word (file_path : path) (mime_type : str) :
  mime_type = mime_docx \/ mime_type = mime_doc ->
  extract_text w file_path mime_type
  = match docx2txt_process w file_path with
    | Ok s => Ok s
    | Err e => Err (External e)
    end.
Proof.
  intros [-> | ->]; reflexivity.
Qed.

(** X11: for "application/pdf" a failure is never turned into a partial
    text: when the PDF does not open, or when a page fails after any
    number of pages that gave their text, [extract_text] raises that
    failure. *)
Theorem extract_text_pdf_failure
  (file_path : path) (pre : list page) (texts : list (option str))
  (pg : page) (post : list page) (e : ext_error) :
  pdf_pages w file_path = Ok (pre ++ pg :: post) ->
  Forall2 (fun q t => page_extract_text w q = Ok t) pre texts ->
  page_extract_text w pg = Err e ->
  extract_text w file_path mime_pdf = Err (External e)
  /\ (forall (w' : World path page ext_error) (e' : ext_error),
        pdf_pages w' file_path = Err e' ->
        extract_text w' file_path mime_pdf = Err (External e')).
Proof.
  intros Hopen Hpre Hpg. split.
  - unfold extract_text. change (eqb mime_pdf mime_pdf) with true.
    cbv iota. rewrite Hopen. simpl.
    now apply (pages_loop_error pre texts).
  - intros w' e' Hopen'. unfold extract_text.
    change (eqb mime_pdf mime_pdf) with true.
    cbv iota. now rewrite Hopen'.
Qed.

Lemma spec_pdf_text_cons (t : option str) (texts : list (option str)) :
  spec_pdf_text (t :: texts)
  = (match t with
     | Some s => if truthy s then s ++ newline else []
     | None => []
     end) ++ spec_pdf_text texts.
Proof.
  unfold spec_pdf_text. destruct t as [s|]; simpl; [|reflexivity].
  destruct (truthy s); simpl; [|reflexivity].
  now rewrite <- app_assoc.
Qed.

Lemma spec_pdf_text_shape (texts : list (option str)) :
  (spec_pdf_text texts = []
   <-> Forall (fun t => page_text_truthy t = false) texts)
  /\ (spec_pdf_text texts = []
      \/ exists body, spec_pdf_text texts = body ++ newline).
Proof.
  induction texts as [|t texts [IHe IHs]].
  - split; [split; [constructor|reflexivity]|now left].
  - rewrite spec_pdf_text_cons.
    destruct t as [[|c s]|]; simpl.
    + split; [|exact IHs]. rewrite IHe. split.
      * now constructor.
      * intros H. now inversion H.
    + split.
      * split; [discriminate|]. intros H. inversion H. discriminate.
      * right. destruct IHs as [->|[body ->]].
        -- exists (c :: s). now rewrite app_nil_r.
        -- exists (c :: s ++ newline ++ body).
           simpl. now rewrite <- !app_assoc.
    + split; [|exact IHs]. rewrite IHe. split.
      * now constructor.
      * intros H. now inversion H.
Qed.

(** X12: for "application/pdf", when the file opens and the pages
    yield [texts], the text returned is empty exactly when no page
    yields a non-empty string (no page at all, or only pages without
    text); otherwise it ends with a newline. *)
Theorem extract_text_pdf_shape
  (file_path : path) (pages : list page) (texts : list (option str)) :
  pdf_pages w file_path = Ok pages ->
  Forall2 (fun pg t => page_extract_text w pg = Ok t) pages texts ->
  exists t,
    extract_text w file_path mime_pdf = Ok t
    /\ (t = [] <-> Forall (fun x => page_text_truthy x = false) texts)
    /\ (t = [] \/ exists body, t = body ++ newline).
Proof.
  intros Hopen Hpages. exists (spec_pdf_text texts).
  split; [|apply spec_pdf_text_shape].
  unfold extract_text. change (eqb mime_pdf mime_pdf) with true.
  cbv iota. rewrite Hopen. simpl.
  now rewrite (pages_loop_spec w pages texts Hpages).
Qed.

(** X13: the PDF and Word MIME types are matched whole: one of them
    followed by anything (a parameter, a space) is an unsupported
    type. *)
Theorem extract_text_exact_match
  (file_path : path) (mime_type rest : str) :
  In mime_type [mime_pdf; mime_docx; mime_doc] -> rest <> [] ->
  extract_text w file_path (mime_type ++ rest)
  = Err (Exception (unsupported_prefix ++ mime_type ++ rest)).
Proof.
  intros Hin Hrest. destruct rest as [|c rest]; [congruence|].
  destruct Hin as [<-|[<-|[<-|[]]]]; reflexivity.
Qed.

End ExtractMore.

Lemma extract_text_word_witness :
  extract_text faulty_world (lit "report.doc") mime_doc
  = Err (External tt).
Proof.
  exact (extract_text_word faulty_world (lit "report.doc") mime_doc
           (or_intror eq_refl)).
Defined.

Lemma extract_text_pdf_failure_witness :
  extract_text faulty_world (lit "scan.pdf") mime_pdf = Err (External tt).
Proof.
  exact (proj1 (extract_text_pdf_failure faulty_world (lit "scan.pdf")
                  [Ok (Some (lit "Hello"))] [Some (lit "Hello")]
                  (Err tt) [Ok (Some (lit "World"))] tt eq_refl
                  (Forall2_cons _ _ eq_refl (Forall2_nil _)) eq_refl)).
Defined.

Lemma extract_text_pdf_shape_witness :
  exists t,
    extract_text files_world (lit "a.pdf") mime_pdf = Ok t
    /\ (t = [] <->
        Forall (fun x => page_text_truthy x = false)
          [Some (lit "Hello"); Some (lit "World")])
    /\ (t = [] \/ exists body, t = body ++ newline).
Proof.
  exact (extract_text_pdf_shape files_world (lit "a.pdf")
           [Some (lit "Hello"); Some (lit "World")]
           [Some (lit "Hello"); Some (lit "World")]
           eq_refl
           (Forall2_cons _ _ eq_refl
              (Forall2_cons _ _ eq_refl (Forall2_nil _)))).
Defined.

Lemma extract_text_exact_match_witness :
  extract_text files_world (lit "a.pdf")
    (mime_pdf ++ lit "; charset=binary")
  = Err (Exception
           (unsupported_prefix ++ mime_pdf ++ lit "; charset=binary")).
Proof.
  apply (extract_text_exact_match files_world (lit "a.pdf")
           mime_pdf (lit "; charset=binary")).
  - now left.
  - discriminate.
Defined.

(** ** The script *)

Section MainFacts.

Context {page ext_error : Type}.
Variable w : World str page ext_error.
Variable json_dumps : Output -> str.

(** X14: started with fewer than two arguments (a [sys.argv] of fewer
    than three entries) the script raises [IndexError] and prints
    nothing, whatever the files and the libraries would do. *)
Theorem main_missing_arguments (argv : list str) (fuel : nat) :
  (length argv < 3)%nat ->
  main w json_dumps fuel argv
  = Some {| stdout := []; uncaught := Some IndexError |}.
Proof.
  intros Hlen.
  destruct argv as [|prog [|file_path [|mime_type extra]]];
    [reflexivity|reflexivity|reflexivity|simpl in Hlen; lia].
Qed.

(** X15: started with two arguments or more the script always
    finishes, and ignores the arguments after the second.  If
    [extract_text] raises, the script ends with that exception and has
    printed nothing.  Otherwise it prints one document and a newline: the
    document is [json.dumps] of the extracted text as it is (not
    stripped) and of the [ceil(len(text)/900)] chunks, chunk [i] with index
    [i] and content [text[i*900 : i*900+1000].strip()]. *)
Theorem main_run (prog file_path mime_type : str) (extra : list str) :
  main_returns w json_dumps (prog :: file_path :: mime_type :: extra)
    (match extract_text w file_path mime_type with
     | Err e => {| stdout := []; uncaught := Some (Raised e) |}
     | Ok raw_text =>
         {| stdout :=
              json_dumps
                {| out_text := raw_text;
                   out_chunks :=
                     spec_chunks raw_text 1000 100
                       (spec_count raw_text 1000 100) |}
              ++ newline;
            uncaught := None |}
     end).
Proof.
  unfold main_returns, main. cbn [nth_error].
  destruct (extract_text w file_path mime_type) as [raw_text|e].
  - exists (S (spec_count raw_text 1000 100)).
    rewrite chunk_text_fuel_spec; [reflexivity|reflexivity|lia].
  - now exists O.
Qed.

End MainFacts.

Lemma main_missing_arguments_witness :
  main faulty_world Json.dumps 0 [lit "extract_and_chunk.py"; lit "a.pdf"]
  = Some {| stdout := []; uncaught := Some IndexError |}.
Proof.
  apply (main_missing_arguments faulty_world Json.dumps
           [lit "extract_and_chunk.py"; lit "a.pdf"] 0).
  simpl. lia.
Defined.

(** ** The printed document *)

Lemma hex_digit_printable (d : N) :
  (d < 16)%N -> Json.printable (Json.hex_digit d).
Proof.
  intros Hd. unfold Json.hex_digit, Json.printable.
  assert (Hn : (N.to_nat d < 16)%nat) by lia.
  revert Hn. generalize (N.to_nat d). intros n Hn.
  do 16 (destruct n as [|n]; [simpl; lia|]). lia.
Qed.

Lemma u_escape_printable (n : N) :
  Forall Json.printable (Json.u_escape n).
Proof.
  unfold Json.u_escape.
  repeat constructor; try (unfold Json.printable; lia);
    apply hex_digit_printable, N.mod_lt; discriminate.
Qed.

Lemma escape_char_printable (c : char) :
  Forall Json.printable (Json.escape_char c).
Proof.
  unfold Json.escape_char.
  repeat match goal with
         | |- context [if (c =? ?k)%N then _ else _] =>
             destruct (c =? k)%N;
             [repeat constructor; unfold Json.printable; lia|]
         end.
  destruct ((32 <=? c) && (c <=? 126))%N eqn:Hp.
  - apply andb_true_iff in Hp. destruct Hp as [Hlo Hhi].
    apply N.leb_le in Hlo, Hhi.
    repeat constructor; assumption.
  - destruct (c <? 65536)%N.
    + apply u_escape_printable.
    + apply Forall_app. split; apply u_escape_printable.
Qed.

Lemma dumps_str_printable (s : str) :
  Forall Json.printable (Json.dumps_str s).
Proof.
  unfold Json.dumps_str, Json.quote.
  rewrite !Forall_app. repeat split.
  - repeat constructor; unfold Json.printable; lia.
  - apply Forall_flat_map, Forall_forall.
    intros c _. apply escape_char_printable.
  - repeat constructor; unfold Json.printable; lia.
Qed.

Lemma uint_printable (d : Decimal.uint) :
  Forall Json.printable (lit (NilEmpty.string_of_uint d)).
Proof.
  induction d; simpl; constructor; try assumption;
    unfold Json.printable; simpl; lia.
Qed.

Lemma dumps_int_printable (z : Z) :
  Forall Json.printable (Json.dumps_int z).
Proof.
  unfold Json.dumps_int.
  assert (Hu : forall d, Forall Json.printable
                           (lit (NilZero.string_of_uint d))).
  { intros d. destruct d; try apply uint_printable.
    repeat constructor; unfold Json.printable; simpl; lia. }
  destruct (Z.to_int z) as [d|d]; simpl; [apply Hu|].
  constructor; [unfold Json.printable; simpl; lia|apply Hu].
Qed.

Ltac printable_literal :=
  repeat constructor; unfold Json.printable; simpl; lia.

Lemma dumps_chunk_printable (c : Chunk) :
  Forall Json.printable (Json.dumps_chunk c).
Proof.
  unfold Json.dumps_chunk. rewrite !Forall_app.
  repeat split;
    first [apply dumps_str_printable | apply dumps_int_printable
          | printable_literal].
Qed.

Lemma join_printable (sep : str) (items : list str) :
  Forall Json.printable sep ->
  Forall (Forall Json.printable) items ->
  Forall Json.printable (Json.join sep items).
Proof.
  intros Hsep Hitems.
  induction Hitems as [|x rest Hx Hrest IH]; [constructor|].
  destruct rest as [|y rest]; [exact Hx|].
  change (Json.join sep (x :: y :: rest))
    with (x ++ sep ++ Json.join sep (y :: rest)).
  rewrite !Forall_app. auto.
Qed.

Lemma dumps_printable (o : Output) :
  Forall Json.printable (Json.dumps o).
Proof.
  unfold Json.dumps, Json.dumps_chunks. rewrite !Forall_app.
  repeat split;
    try first [apply dumps_str_printable | printable_literal].
  apply join_printable; [printable_literal|].
  apply Forall_forall. intros x Hx. apply in_map_iff in Hx.
  destruct Hx as [c [<- _]]. apply dumps_chunk_printable.
Qed.

(** X16: with [json.dumps] as the script calls it, a run that ends
    with an exception has printed nothing, and a run that ends without has
    printed one line: printable ASCII characters (codes 32 to 126, so no
    newline and nothing outside ASCII) followed by one newline. *)
Theorem main_prints_one_ascii_line
  {page ext_error : Type} (w : World str page ext_error)
  (fuel : nat) (argv : list str) (r : Run ext_error) :
  main w Json.dumps fuel argv = Some r ->
  match uncaught r with
  | Some _ => stdout r = []
  | None =>
      exists line,
        stdout r = line ++ newline
        /\ Forall Json.printable line /\ ~ In 10%N line
  end.
Proof.
  unfold main. intros H.
  destruct (nth_error argv 1) as [file_path|];
    [|inversion H; reflexivity].
  destruct (nth_error argv 2) as [mime_type|];
    [|inversion H; reflexivity].
  destruct (extract_text w file_path mime_type) as [raw_text|e];
    [|inversion H; reflexivity].
  destruct (chunk_text_fuel raw_text 1000 100 fuel) as [cs|];
    [|discriminate].
  injection H as <-. cbn [uncaught stdout].
  exists (Json.dumps {| out_text := raw_text; out_chunks := cs |}).
  split; [reflexivity|]. split.
  - apply dumps_printable.
  - intros Hin.
    pose proof (dumps_printable {| out_text := raw_text; out_chunks := cs |})
      as Hp.
    rewrite Forall_forall in Hp. apply Hp in Hin.
    unfold Json.printable in Hin. lia.
Qed.

Lemma main_prints_one_ascii_line_witness :
  exists line,
    Json.dumps
      {| out_text := lit "plain text";
         out_chunks := [ {| index := 0; content := lit "plain text" |} ] |}
    ++ newline = line ++ newline
    /\ Forall Json.printable line /\ ~ In 10%N line.
Proof.
  exact (main_prints_one_ascii_line files_world 2
           [lit "extract_and_chunk.py"; lit "notes.txt"; lit "text/plain"]
           _ eq_refl).
Defined.

(** ** Appending to the text *)

(** X9: with the default arguments, text appended after the end of a
    full window does not change the chunk of that window: when
    [i*900 + 1000 <= len(text)], chunk [i] of [text + more] is chunk [i]
    of [text]. *)
Theorem chunk_text_append_stable (text more : str) (i : nat) :
  Z.of_nat i * 900 + 1000 <= len text ->
  exists r r' c,
    chunk_text_returns text 1000 100 r
    /\ chunk_text_returns (text ++ more) 1000 100 r'
    /\ nth_error r i = Some c
    /\ nth_error r' i = Some c.
Proof.
  intros Hfull.
  pose proof (spec_count_default_bounds text) as Hb.
  pose proof (spec_count_default_bounds (text ++ more)) as Hb'.
  assert (Hlen : len text <= len (text ++ more))
    by (unfold len; rewrite length_app; lia).
  exists (spec_chunks text 1000 100 (spec_count text 1000 100)),
    (spec_chunks (text ++ more) 1000 100
       (spec_count (text ++ more) 1000 100)).
  eexists.
  split; [apply chunk_text_default|].
  split; [apply chunk_text_default|].
  split; [apply spec_chunks_nth; lia|].
  rewrite spec_chunks_nth by lia. do 3 f_equal.
  rewrite !window_firstn_skipn by easy.
  rewrite skipn_app, firstn_app, length_skipn.
  replace (Z.to_nat 1000 - _)%nat with O
    by (unfold len in Hfull; lia).
  simpl firstn at 2. now rewrite app_nil_r.
Qed.

Lemma chunk_text_append_stable_witness :
  exists r r' c,
    chunk_text_returns (repeat 97%N 1000) 1000 100 r
    /\ chunk_text_returns (repeat 97%N 1000 ++ lit "xyz") 1000 100 r'
    /\ nth_error r 0 = Some c
    /\ nth_error r' 0 = Some c.
Proof.
  apply (chunk_text_append_stable (repeat 97%N 1000) (lit "xyz") 0).
  vm_compute. congruence.
Defined.
